(** * ramfs: the in-memory 9P2000 file server, facade layer (fs.go)

    A shallow embedding of [fs.go]: the path (qid) allocator, the startup
    namespace built by [New], the fid-minting task and the local facade
    ([Attach], [Create], [Open], [Remove]), followed by the properties
    the design document states about them. *)

From stdpp Require Import gmap strings list fin_maps.
From Stdlib Require Import ZArith Lia Ascii.

#[local] Set Warnings "-clear-no-such-hyp".

Local Open Scope Z_scope.

(** * Results and errors *)

(** The error values seen by the facade.  [perror] is the constructor the
    sources use ([perror("out of paths")]).
    Modelled from the spec: [perror] itself and the lookups that raise the
    other two errors are declared in files not at hand; section 7 of the
    design document names the kinds ([NotFound]) and says that a missing
    identity is an error of the lookup. *)
Inductive error : Type :=
  | perror (msg : string)
  | NotFound
  | UnknownUser.

(** A Go [(T, error)] pair: either the value with a nil error, or the
    error (the value slot is then zero or nil and carries nothing). *)
Inductive result (A : Type) : Type :=
  | Ok (a : A)
  | Err (e : error).
Arguments Ok {A} a.
Arguments Err {A} e.

(** A call that may also [panic]. *)
Inductive outcome (A : Type) : Type :=
  | Ret (a : A)
  | Fail (e : error)
  | Panic (e : error).
Arguments Ret {A} a.
Arguments Fail {A} e.
Arguments Panic {A} e.

#[global] Instance error_eq_dec : EqDecision error.
Proof. solve_decision. Defined.

#[global] Instance result_eq_dec {A} `{EqDecision A} : EqDecision (result A).
Proof. solve_decision. Defined.

(** The design document's name for path-space exhaustion. *)
Definition ResourceExhausted : error := perror "out of paths".

(** * Constants *)

Definition two64 : Z := 2 ^ 64.

(** [const maxPath = uint64(1<<64 - 1)] *)
Definition maxPath : Z := Z.shiftl 1 64 - 1.

(** [uint64] arithmetic wraps around. *)
Definition wrap64 (z : Z) : Z := z mod two64.

(** An octal literal [0abc]. *)
Definition octal (a b c : Z) : Z := a * 64 + b * 8 + c.

(** Mode bits of [plan9] (the 9P2000 constants). *)
Definition DMDIR       : Z := 0x80000000.
Definition DMAPPEND    : Z := 0x40000000.
Definition DMEXCL      : Z := 0x20000000.
Definition DMAUTH      : Z := 0x08000000.
Definition DMSYMLINK   : Z := 0x02000000.
Definition DMDEVICE    : Z := 0x00800000.
Definition DMNAMEDPIPE : Z := 0x00200000.
Definition DMSOCKET    : Z := 0x00100000.
Definition DMREAD      : Z := 4.
Definition DMWRITE     : Z := 2.
Definition DMEXEC      : Z := 1.

(** * Permissions ([type Perm uint32]) *)

Definition Perm := Z.

(** [var permChars = []permChar{...}] *)
Definition permChars : list (Perm * string) :=
  [ (DMDIR, "d"); (DMAPPEND, "a"); (DMAUTH, "A"); (DMDEVICE, "D");
    (DMSOCKET, "S"); (DMNAMEDPIPE, "P"); (0, "-");
    (DMEXCL, "l"); (DMSYMLINK, "L"); (0, "-");
    (octal 4 0 0, "r"); (0, "-"); (octal 2 0 0, "w"); (0, "-");
    (octal 1 0 0, "x"); (0, "-");
    (octal 0 4 0, "r"); (0, "-"); (octal 0 2 0, "w"); (0, "-");
    (octal 0 1 0, "x"); (0, "-");
    (octal 0 0 4, "r"); (0, "-"); (octal 0 0 2, "w"); (0, "-");
    (octal 0 0 1, "x"); (0, "-") ].

(** The body of the loop of [Perm.String], on the pair [(s, did)]. *)
Definition Perm_String_step (p : Perm) (st : string * bool)
    (pc : Perm * string) : string * bool :=
  let '(s, did) := st in
  let '(bit, c) := pc in
  let '(s, did) :=
    if negb (Z.eqb (Z.land p bit) 0) then (s +:+ c, true) else (s, did) in
  if Z.eqb bit 0
  then ((if negb did then s +:+ c else s), false)
  else (s, did).

(** [func (p Perm) String() string] *)
Definition Perm_String (p : Perm) : string :=
  fst (foldl (Perm_String_step p) ("", false) permChars).

(** Who asks: the three triads of the mode word. *)
Inductive who : Type := Owner | Group | Other.

Definition triad_shift (w : who) : Z :=
  match w with Owner => 6 | Group => 3 | Other => 0 end.

(** [grants w bit m]: mode [m] has permission [bit] ([DMREAD], [DMWRITE]
    or [DMEXEC]) set in the triad of [w]. *)
Definition grants (w : who) (bit : Z) (m : Perm) : bool :=
  negb (Z.eqb (Z.land (Z.shiftr m (triad_shift w)) bit) 0).

Definition is_dir (m : Perm) : bool := negb (Z.eqb (Z.land m DMDIR) 0).

(** * The identity store *)

(** Modelled from the spec: the identity record and the store are declared
    in a file not at hand.  Section 3 of the design document: an identity
    is a canonical name plus group membership; the store maps a user name
    to its identity.  The facade reads the field [Name] only. *)
Record user : Type := mkUser {
  Name : string;
  Member : list string
}.

(** The zero [user] value, left in a variable by a failed lookup. *)
Definition zero_user : user := mkUser "" [].

Abbreviation group := (gmap string user).

(** Modelled from the spec: [group.Get], the lookup by user name; it fails
    when the store has no such name. *)
Definition Get (g : group) (uname : string) : result user :=
  match g !! uname with
  | Some u => Ok u
  | None => Err UnknownUser
  end.

(** Modelled from the spec: [newGroup(owner)], the store at startup.  It
    holds the host identity (whose absence is a startup invariant
    violation, section 7), the administrative identity that owns the
    startup files, and the well-known anonymous identity. *)
Definition newGroup (owner : string) : group :=
  <[owner := mkUser owner [owner]]>
    (<["none" := mkUser "none" ["none"]]>
      (<["adm" := mkUser "adm" ["adm"]]> ∅)).

(** Every entry is filed under its own canonical name. *)
Definition canonical (g : group) : Prop :=
  ∀ k u, g !! k = Some u → Name u = k.

(** * Nodes *)

(** A [*node].  [null] is Go's nil; [addr i] is the [i]-th node object
    allocated for the file system; [blank] is a pointer to a node that was
    just allocated as [&node{}] and is not part of the tree. *)
Inductive ptr : Type :=
  | null
  | addr (i : nat)
  | blank.

#[global] Instance ptr_eq_dec : EqDecision ptr.
Proof. solve_decision. Defined.

(** What serves the content of a synthetic file: the identity table
    ([fs.group]) or the control file ([newCtl(fs)]). *)
Inductive provider : Type :=
  | IdentityTable
  | Control.

#[global] Instance provider_eq_dec : EqDecision provider.
Proof. solve_decision. Defined.

(** Modelled from the spec: the node record is declared in a file not at
    hand; [fs.go] uses its fields [children] and [parent] and passes the
    others to [newNode].  Section 3 of the design document: name, owner
    uid, group gid, type and mode bits, path id, a provider for synthetic
    files, named children and a reference to the parent. *)
Record node : Type := mkNode {
  n_name : string;
  n_uid : string;
  n_gid : string;
  n_mode : Perm;
  n_path : Z;
  n_provider : option provider;
  children : gmap string ptr;
  parent : ptr
}.

Definition set_children (n : node) (c : gmap string ptr) : node :=
  mkNode (n_name n) (n_uid n) (n_gid n) (n_mode n) (n_path n)
         (n_provider n) c (parent n).

Definition set_parent (n : node) (p : ptr) : node :=
  mkNode (n_name n) (n_uid n) (n_gid n) (n_mode n) (n_path n)
         (n_provider n) (children n) p.

(** [&node{}] *)
Definition zero_node : node := mkNode "" "" "" 0 0 None ∅ null.

(** * Fids *)

(** Modelled from the spec: the fid record is declared in a file not at
    hand; [fs.go] sets [num], [uid] and [node].  Section 3 of the design
    document adds the open mode, which is none until the fid is opened. *)
Record Fid : Type := mkFid {
  num : Z;
  uid : string;
  fnode : ptr;
  omode : option Z
}.

(** [&Fid{uid: uid, node: node}]: the other fields are zero. *)
Definition Fid_of (uid : string) (n : ptr) : Fid := mkFid 0 uid n None.

(** * The file system *)

(** [type FS struct].  [nodes] is the store of the node objects: a
    [*node] is an index into it.  The mutex guards [path] and [pathmap];
    every method below is one critical section. *)
Record FS : Type := mkFS {
  path : Z;
  pathmap : gmap Z bool;
  root : ptr;
  fsgroup : group;
  hostowner : string;
  nodes : list node
}.

Definition set_path (fs : FS) (p : Z) : FS :=
  mkFS p (pathmap fs) (root fs) (fsgroup fs) (hostowner fs) (nodes fs).

Definition set_pathmap (fs : FS) (m : gmap Z bool) : FS :=
  mkFS (path fs) m (root fs) (fsgroup fs) (hostowner fs) (nodes fs).

Definition set_root (fs : FS) (r : ptr) : FS :=
  mkFS (path fs) (pathmap fs) r (fsgroup fs) (hostowner fs) (nodes fs).

Definition set_nodes (fs : FS) (ns : list node) : FS :=
  mkFS (path fs) (pathmap fs) (root fs) (fsgroup fs) (hostowner fs) ns.

(** Reading through a pointer. *)
Definition deref (fs : FS) (p : ptr) : option node :=
  match p with
  | null => None
  | addr i => nodes fs !! i
  | blank => Some zero_node
  end.

(** Writing through a pointer: [p.field = ...]. *)
Definition update (fs : FS) (p : ptr) (f : node → node) : FS :=
  match p with
  | addr i =>
      match nodes fs !! i with
      | Some n => set_nodes fs (<[i := f n]> (nodes fs))
      | None => fs
      end
  | _ => fs
  end.

(** Modelled from the spec: [newNode(fs, name, uid, gid, perm, path,
    provider)] is declared in a file not at hand.  It allocates a node
    holding its arguments, with an empty table of children ([New] stores
    into it) and no parent yet. *)
Definition newNode (fs : FS) (name uid gid : string) (perm : Perm)
    (p : Z) (prov : option provider) : ptr * FS :=
  (addr (length (nodes fs)),
   set_nodes fs (nodes fs ++ [mkNode name uid gid perm p prov ∅ null])).

(** [func New(hostowner string) *FS] (without the start of the minting
    task, which is [newFid] below). *)
Definition New (hostowner : string) : FS :=
  let owner := if decide (hostowner = "") then "adm" else hostowner in
  let fs := mkFS 4 ∅ null (newGroup owner) owner [] in
  let '(root, fs) :=
    newNode fs "/" owner "adm" (Z.lor (octal 7 5 5) DMDIR) 0 None in
  let '(adm, fs) :=
    newNode fs "adm" "adm" "adm" (Z.lor (octal 7 7 0) DMDIR) 1 None in
  let '(group, fs) :=
    newNode fs "group" "adm" "adm" (octal 6 6 0) 2 (Some IdentityTable) in
  let '(ctl, fs) :=
    newNode fs "ctl" "adm" "adm" (octal 2 2 0) 3 (Some Control) in
  let fs := update fs root (λ n, set_children n (<["adm" := adm]> (children n))) in
  let fs := update fs adm (λ n, set_children n (<["group" := group]> (children n))) in
  let fs := update fs adm (λ n, set_children n (<["ctl" := ctl]> (children n))) in
  let fs := update fs root (λ n, set_parent n root) in
  let fs := update fs adm (λ n, set_parent n root) in
  let fs := update fs group (λ n, set_parent n adm) in
  let fs := update fs ctl (λ n, set_parent n adm) in
  set_root fs root.

(** * The path allocator *)

(** [func (fs *FS) newPath() (uint64, error)].

    The loop [for path := range fs.pathmap] returns in its first
    iteration, and the order in which Go ranges over a map is left to the
    runtime: any key of the map may come first.  The embedding therefore
    yields every outcome the call can have, each with the state it
    leaves. *)
Definition newPath (fs : FS) : list (result Z * FS) :=
  match map_to_list (pathmap fs) with
  | (_ :: _) as entries =>
      (λ kv : Z * bool,
         (Ok kv.1, set_pathmap fs (delete kv.1 (pathmap fs)))) <$> entries
  | [] =>
      let p := path fs in
      if path fs =? maxPath
      then [(Err (perror "out of paths"), fs)]
      else [(Ok p, set_path fs (wrap64 (path fs + 1)))]
  end.

(** [func (fs *FS) delPath(path uint64)] *)
Definition delPath (fs : FS) (p : Z) : FS :=
  set_pathmap fs (<[p := true]> (pathmap fs)).

(** The reclaim set: the keys of [pathmap]. *)
Definition reclaim (fs : FS) : gset Z := dom (pathmap fs).

(** ** Runs of the allocator *)

(** What a caller sees of one call. *)
Inductive event : Type :=
  | EvNew (r : result Z)
  | EvDel (id : Z).

Inductive step : FS → event → FS → Prop :=
  | step_new fs r fs' :
      (r, fs') ∈ newPath fs → step fs (EvNew r) fs'
  | step_del fs id :
      0 ≤ id < two64 → step fs (EvDel id) (delPath fs id).

Inductive exec : FS → list event → FS → Prop :=
  | exec_nil fs : exec fs [] fs
  | exec_cons fs e fs1 tr fs2 :
      step fs e fs1 → exec fs1 tr fs2 → exec fs (e :: tr) fs2.

(** The ids that are live after a run that started with [L] live: those
    returned by [newPath] and not passed to [delPath] since. *)
Definition live_step (L : gset Z) (e : event) : gset Z :=
  match e with
  | EvNew (Ok id) => L ∪ {[id]}
  | EvNew (Err _) => L
  | EvDel id => L ∖ {[id]}
  end.

Definition live (L : gset Z) (tr : list event) : gset Z :=
  foldl live_step L tr.

(** A run frees live ids only: every [delPath] is passed an id that is
    live when the call is made. *)
Fixpoint frees_live (L : gset Z) (tr : list event) : bool :=
  match tr with
  | [] => true
  | EvDel id :: tr' =>
      bool_decide (id ∈ L) && frees_live (live_step L (EvDel id)) tr'
  | e :: tr' => frees_live (live_step L e) tr'
  end.

(** * The fid-minting task *)

(** What the task does to the reply channels it is handed; a channel is
    named by a number.  [Crash] is the panic of Go on a send to a closed
    channel, which ends the task. *)
Inductive action : Type :=
  | Send (ch : nat) (f : Fid)
  | Close (ch : nat)
  | Crash (ch : nat).

(** The loop of [newFid]; [closed] holds the reply channels closed so
    far. *)
Fixpoint newFid_loop (fs : FS) (closed : gset nat) (fidnew : list nat)
    : list action :=
  match fidnew with
  | [] => []
  | ch :: rest =>
      if decide (ch ∈ closed) then [Crash ch]
      else
        Send ch (mkFid 0 "none" (root fs) None)
          :: Close ch
          :: newFid_loop fs (closed ∪ {[ch]}) rest
  end.

(** [func (fs *FS) newFid(fidnew <-chan (chan *Fid))]: [fidnew] is the
    sequence of reply channels received until the queue is closed. *)
Definition newFid (fs : FS) (fidnew : list nat) : list action :=
  newFid_loop fs ∅ fidnew.

(** The actions on one channel. *)
Definition on_chan (ch : nat) (a : action) : bool :=
  match a with
  | Send c _ | Close c | Crash c => bool_decide (c = ch)
  end.

(** * Path names *)

Definition slash : ascii := "/"%char.
Definition dot : ascii := "."%char.

Definition is_slash (c : ascii) : bool := bool_decide (c = slash).
Definition is_dot (c : ascii) : bool := bool_decide (c = dot).

(** The longest prefix without a slash, and what follows it. *)
Fixpoint span_elem (s : list ascii) : list ascii * list ascii :=
  match s with
  | [] => ([], [])
  | c :: t =>
      if is_slash c then ([], s)
      else let '(w, r) := span_elem t in (c :: w, r)
  end.

Fixpoint drop_slashes (s : list ascii) : list ascii :=
  match s with
  | c :: t => if is_slash c then drop_slashes t else s
  | [] => []
  end.

(** [strings.Split(s, "/")] of the Go library. *)
Fixpoint strings_Split (s : string) : list string :=
  match s with
  | EmptyString => [EmptyString]
  | String c t =>
      if is_slash c then EmptyString :: strings_Split t
      else match strings_Split t with
           | w :: ws => String c w :: ws
           | [] => [String c EmptyString]
           end
  end.

(** [func split(path string) []string] *)
Definition split (path : string) : list string :=
  if decide (path = "" ∨ path = "/" ∨ path = ".") then []
  else
    let path :=
      match path with
      | String c t => if is_slash c then t else path
      | EmptyString => path
      end in
    strings_Split path.

(** ** [path.Clean], [path.Dir] and [path.Base] of the Go library

    The output buffer is kept as the list of its bytes, last byte first,
    so that [out.w] is its length. *)

(** True at the end of the input and in front of a slash. *)
Definition elem_ends (s : list ascii) : bool :=
  match s with
  | [] => true
  | c :: _ => is_slash c
  end.

(** [out.w--; for out.w > dotdot && out.index(out.w) != '/' { out.w-- }] *)
Fixpoint backtrack (out : list ascii) (dotdot : nat) : list ascii :=
  match out with
  | [] => []
  | c :: out' =>
      if (dotdot <? length out')%nat && negb (is_slash c)
      then backtrack out' dotdot
      else out'
  end.

(** The loop [for r < n] of [Clean]; [rest] is [path[r:]].  Every
    iteration consumes input, so [length rest] iterations suffice. *)
Fixpoint Clean_loop (fuel : nat) (rooted : bool) (rest out : list ascii)
    (dotdot : nat) : list ascii :=
  match fuel, rest with
  | O, _ | _, [] => out
  | S fuel, c :: t =>
      if is_slash c then
        (* empty path element *)
        Clean_loop fuel rooted t out dotdot
      else if is_dot c && elem_ends t then
        (* . element *)
        Clean_loop fuel rooted t out dotdot
      else if is_dot c
                && match t with
                   | d :: t' => is_dot d && elem_ends t'
                   | [] => false
                   end then
        (* .. element: remove to last / *)
        let t' := tail t in
        if (dotdot <? length out)%nat then
          Clean_loop fuel rooted t' (backtrack out dotdot) dotdot
        else if negb rooted then
          let out := if (0 <? length out)%nat then slash :: out else out in
          let out := dot :: dot :: out in
          Clean_loop fuel rooted t' out (length out)
        else Clean_loop fuel rooted t' out dotdot
      else
        (* real path element: add slash if needed, copy element *)
        let out :=
          if (rooted && negb (length out =? 1)%nat)
             || (negb rooted && negb (length out =? 0)%nat)
          then slash :: out else out in
        let '(w, rest') := span_elem rest in
        Clean_loop fuel rooted rest' (rev w ++ out) dotdot
  end.

Definition Clean (path : string) : string :=
  match String.list_ascii_of_string path with
  | [] => "."
  | c :: t =>
      let n := String.length path in
      let out :=
        if is_slash c
        then Clean_loop n true t [slash] 1
        else Clean_loop n false (c :: t) [] 0 in
      match out with
      | [] => "."
      | _ => String.string_of_list_ascii (rev out)
      end
  end.

(** [path.Split]: the directory part, up to and with the last slash, and
    the file part after it. *)
Definition path_Split (path : string) : string * string :=
  let '(file, dir) := span_elem (rev (String.list_ascii_of_string path)) in
  (String.string_of_list_ascii (rev dir), String.string_of_list_ascii (rev file)).

Definition Dir (path : string) : string := Clean (path_Split path).1.

Definition Base (path : string) : string :=
  match String.list_ascii_of_string path with
  | [] => "."
  | p =>
      match (span_elem (drop_slashes (rev p))).1 with
      | [] => "/"
      | file => String.string_of_list_ascii (rev file)
      end
  end.

(** * Walking the tree *)

(** Modelled from the spec: the traversal [walk(root, path, fn)] is
    declared in a file not at hand.  It resolves the names of [path] one
    after the other through the tables of children, starting at [root],
    and fails with [NotFound] at the first name that does not resolve; at
    every node it reaches it calls [fn] with that node and the names still
    to be resolved.  The variables the closure [fn] captures are passed
    around as [s]. *)
Fixpoint walk {S : Type} (fs : FS) (n : ptr) (path : list string)
    (fn : ptr → list string → S → result S) (s : S) : result S :=
  match path with
  | [] => Ok s
  | name :: rest =>
      match deref fs n ≫= (λ d, children d !! name) with
      | None => Err NotFound
      | Some child =>
          match fn child rest s with
          | Err e => Err e
          | Ok s' => walk fs child rest fn s'
          end
      end
  end.

(** [func (fs *FS) walk(name string)], returning a [*node] and an
    [error]; the closure captures [base]. *)
Definition fs_walk (fs : FS) (name : string) : result ptr :=
  let root := root fs in
  let path := split name in
  if decide (length path = 0%nat) then Ok root
  else
    let base := blank in
    match
      walk fs root path
        (λ n path base,
           if decide (length path = 0%nat) then Ok n else Ok base)
        base
    with
    | Err e => Err e
    | Ok base => Ok base
    end.

(** * The facade *)

(** [func (fs *FS) Attach(uname, aname string)], returning a [*Fid] and
    an [error]. *)
Definition Attach (fs : FS) (uname aname : string) : result Fid :=
  let user :=
    match Get (fsgroup fs) uname with
    | Ok user => user
    | Err _ =>
        match Get (fsgroup fs) "none" with
        | Ok user => user
        | Err _ => zero_user
        end
    end in
  let uid := Name user in
  let aname := Clean aname in
  match fs_walk fs aname with
  | Err e => Err e
  | Ok node => Ok (Fid_of uid node)
  end.

Section Facade.

(** The node and fid methods the facade calls are declared in files not
    at hand; they are taken as they come.  Each may change the tree. *)
Variable node_Create :
  FS → ptr → string → string → Z → Perm → result ptr * FS.
Variable node_Close : FS → ptr → FS.
Variable Fid_Open : FS → Fid → Z → result Fid * FS.
Variable Fid_Remove : FS → Fid → option error * FS.

(** [Create] once the identity is resolved: the body from
    [name = path.Clean(name)] on. *)
Definition Create_as (uid : string) (fs : FS) (name : string) (mode : Z)
    (perm : Perm) : outcome Fid * FS :=
  let name := Clean name in
  let dname := Dir name in
  let name := Base name in
  match fs_walk fs dname with
  | Err e => (Fail e, fs)
  | Ok dir =>
      let '(r, fs) := node_Create fs dir uid name mode perm in
      let res :=
        match r with
        | Err e => Fail e
        | Ok node => Ret (Fid_of uid node)
        end in
      (* defer dir.Close() *)
      (res, node_Close fs dir)
  end.

(** [func (fs *FS) Create(name string, mode uint8, perm Perm)],
    returning a [*Fid] and an [error]. *)
Definition Create (fs : FS) (name : string) (mode : Z) (perm : Perm)
    : outcome Fid * FS :=
  match Get (fsgroup fs) (hostowner fs) with
  | Err e => (Panic e, fs)
  | Ok user => Create_as (Name user) fs name mode perm
  end.

Definition Open_as (uid : string) (fs : FS) (name : string) (mode : Z)
    : outcome Fid * FS :=
  let name := Clean name in
  match fs_walk fs name with
  | Err e => (Fail e, fs)
  | Ok node =>
      let fid := Fid_of uid node in
      match Fid_Open fs fid mode with
      | (Err e, fs) => (Fail e, fs)
      | (Ok fid, fs) => (Ret fid, fs)
      end
  end.

(** [func (fs *FS) Open(name string, mode uint8)], returning a [*Fid]
    and an [error]. *)
Definition Open (fs : FS) (name : string) (mode : Z) : outcome Fid * FS :=
  match Get (fsgroup fs) (hostowner fs) with
  | Err e => (Panic e, fs)
  | Ok user => Open_as (Name user) fs name mode
  end.

Definition Remove_as (uid : string) (fs : FS) (name : string)
    : outcome unit * FS :=
  let name := Clean name in
  match fs_walk fs name with
  | Err e => (Fail e, fs)
  | Ok node =>
      let fid := Fid_of uid node in
      match Fid_Remove fs fid with
      | (Some e, fs) => (Fail e, fs)
      | (None, fs) => (Ret (), fs)
      end
  end.

(** [func (fs *FS) Remove(name string) error] *)
Definition Remove (fs : FS) (name : string) : outcome unit * FS :=
  match Get (fsgroup fs) (hostowner fs) with
  | Err e => (Panic e, fs)
  | Ok user => Remove_as (Name user) fs name
  end.

End Facade.

(** * Specification-side notions *)

(** The identity [Attach] resolves: the canonical name of [uname], or
    that of the anonymous identity when the store does not know
    [uname]. *)
Definition attach_identity (fs : FS) (uname : string) : string :=
  match fsgroup fs !! uname with
  | Some u => Name u
  | None => Name (default zero_user (fsgroup fs !! "none"))
  end.

(** [Attach] once the identity is resolved. *)
Definition Attach_as (uid : string) (fs : FS) (aname : string)
    : result Fid :=
  match fs_walk fs (Clean aname) with
  | Err e => Err e
  | Ok node => Ok (Fid_of uid node)
  end.

(** The node a sequence of names resolves to from [n], if any. *)
Fixpoint resolve (fs : FS) (n : ptr) (names : list string) : option ptr :=
  match names with
  | [] => Some n
  | name :: rest =>
      d ← deref fs n; child ← children d !! name; resolve fs child rest
  end.

(** The fid the minting task hands out. *)
Definition fid_template (fs : FS) : Fid := mkFid 0 "none" (root fs) None.

(** The read, write and execute bits of one triad. *)
Definition rwx (w : who) (m : Perm) : bool * bool * bool :=
  (grants w DMREAD m, grants w DMWRITE m, grants w DMEXEC m).

(** Mode [m] lets exactly the classes in [ws] write. *)
Definition writable_by (ws : list who) (m : Perm) : Prop :=
  ∀ w, grants w DMWRITE m = true ↔ w ∈ ws.

(** Mode [m] lets nobody read. *)
Definition unreadable (m : Perm) : Prop :=
  ∀ w, grants w DMREAD m = false.

(** The startup namespace: under the root a directory whose mode
    satisfies [dir_ok], holding a file served by the identity table and a
    control file nobody can read. *)
Definition admin_namespace (fs : FS) (dir_ok : Perm → Prop) : Prop :=
  ∃ r na pa a ng pg g nc pc c,
    deref fs (root fs) = Some r
    ∧ children r !! na = Some pa ∧ deref fs pa = Some a
    ∧ is_dir (n_mode a) = true ∧ dir_ok (n_mode a)
    ∧ children a !! ng = Some pg ∧ deref fs pg = Some g
    ∧ n_provider g = Some IdentityTable
    ∧ children a !! nc = Some pc ∧ deref fs pc = Some c
    ∧ n_provider c = Some Control ∧ unreadable (n_mode c).

(** The closure [fs.walk] passes to [walk]. *)
Definition keep_last (n : ptr) (rest : list string) (base : ptr)
    : result ptr :=
  if decide (length rest = 0%nat) then Ok n else Ok base.

(** The live ids and the ids to reclaim were all issued: they lie below
    the counter, which is a 64-bit number. *)
Definition issued (L : gset Z) (fs : FS) : Prop :=
  0 ≤ path fs < two64 ∧ ∀ id, id ∈ L ∪ reclaim fs → 0 ≤ id < path fs.

(** A run that frees an id it never issued, after which the counter
    reaches that id while it is live. *)
Definition stray_run : list event :=
  [EvDel 5; EvNew (Ok 5); EvNew (Ok 4)].

Definition after_stray_run : FS := set_path (New "") 5.

(** A run that issues an id, frees it and is about to issue it again. *)
Definition churn_run : list event := [EvNew (Ok 4); EvDel 4].

(** Stand-ins for the node and fid methods, for examples: they refuse. *)
Definition no_Create (fs : FS) (dir : ptr) (uid name : string) (mode : Z)
    (perm : Perm) : result ptr * FS := (Err NotFound, fs).
Definition no_Close (fs : FS) (dir : ptr) : FS := fs.
Definition no_Open (fs : FS) (fid : Fid) (mode : Z) : result Fid * FS :=
  (Err NotFound, fs).
Definition no_Remove (fs : FS) (fid : Fid) : option error * FS :=
  (Some NotFound, fs).

(** The character [Perm.String] shows for one permission bit. *)
Definition perm_char (set : bool) (c : string) : string :=
  if set then c else "-".

(** The three characters of one triad. *)
Definition triad_string (w : who) (p : Perm) : string :=
  perm_char (grants w DMREAD p) "r"
  +:+ perm_char (grants w DMWRITE p) "w"
  +:+ perm_char (grants w DMEXEC p) "x".

(** The nine permission characters of a mode, as [ls -l] shows them. *)
Definition rwx_string (p : Perm) : string :=
  triad_string Owner p +:+ triad_string Group p +:+ triad_string Other p.

(** The head of [permChars]: the type flags, in their two groups. *)
Definition flagChars : list (Perm * string) := take 10 permChars.

(** What [Perm.String] has written when it reaches the permission
    bits. *)
Definition flags_string (p : Perm) : string :=
  fst (foldl (Perm_String_step p) ("", false) flagChars).

(** [strings.Join(elems, "/")] of the Go library. *)
Fixpoint strings_Join (elems : list string) : string :=
  match elems with
  | [] => ""
  | [x] => x
  | x :: rest => x +:+ "/" +:+ strings_Join rest
  end.

(** A path without its leading slash, if it has one. *)
Definition trim_slash (path : string) : string :=
  match path with
  | String c t => if is_slash c then t else path
  | EmptyString => path
  end.

(** The names [split] treats as the root. *)
Definition names_root (path : string) : Prop :=
  path = "" ∨ path = "/" ∨ path = ".".

Definition has_slash (x : string) : Prop :=
  slash ∈ String.list_ascii_of_string x.

(** Every child is filed under its own name and points back to the node
    that holds it. *)
Definition tree_linked (fs : FS) : Prop :=
  ∀ i n name c,
    nodes fs !! i = Some n → children n !! name = Some c →
    ∃ cn, deref fs c = Some cn ∧ parent cn = addr i ∧ n_name cn = name.

(** No two node objects share a path id, and every path id in use lies
    below the counter. *)
Definition paths_unique (fs : FS) : Prop :=
  (∀ i j ni nj,
     nodes fs !! i = Some ni → nodes fs !! j = Some nj →
     n_path ni = n_path nj → i = j)
  ∧ ∀ i n, nodes fs !! i = Some n → 0 ≤ n_path n < path fs.

(** The fids sent on one channel. *)
Definition sends_on (ch : nat) (a : action) : bool :=
  match a with
  | Send c _ => bool_decide (c = ch)
  | _ => false
  end.

(** The ids a run has handed out. *)
Definition handed_out (tr : list event) : list Z :=
  omap (λ e, match e with EvNew (Ok id) => Some id | _ => None end) tr.

(** The ids in use by the startup nodes are left alone: with [L] live,
    every live id and every id to reclaim is at least 4, as is the
    counter. *)
Definition past_startup (L : gset Z) (fs : FS) : Prop :=
  4 ≤ path fs ∧ ∀ id, id ∈ L ∪ reclaim fs → 4 ≤ id.

(** * Properties of the path allocator *)

Section Allocator.

Implicit Types (fs : FS) (id : Z).

Lemma maxPath_eq : maxPath = two64 - 1.
Proof. reflexivity. Qed.

Lemma wrap64_succ (p : Z) : 0 ≤ p < maxPath → wrap64 (p + 1) = p + 1.
Proof.
  rewrite maxPath_eq. intros Hp. unfold wrap64.
  apply Z.mod_small. unfold two64 in *. lia.
Qed.

Lemma reclaim_empty fs : reclaim fs = ∅ ↔ pathmap fs = ∅.
Proof. apply dom_empty_iff_L. Qed.

(** With an empty reclaim set the call has one outcome, decided by the
    counter. *)
Lemma newPath_bump fs :
  pathmap fs = ∅ →
  newPath fs =
    if path fs =? maxPath
    then [(Err (perror "out of paths"), fs)]
    else [(Ok (path fs), set_path fs (wrap64 (path fs + 1)))].
Proof.
  intros Hm. unfold newPath. by rewrite Hm, map_to_list_empty.
Qed.

(** With a reclaim set that is not empty, the outcomes are the keys of
    the map, each deleted from it. *)
Lemma newPath_drain fs :
  pathmap fs ≠ ∅ →
  newPath fs =
    (λ kv : Z * bool,
       (Ok kv.1, set_pathmap fs (delete kv.1 (pathmap fs))))
      <$> map_to_list (pathmap fs).
Proof.
  intros Hm. unfold newPath.
  destruct (map_to_list (pathmap fs)) eqn:E; [|reflexivity].
  by apply map_to_list_empty_iff in E.
Qed.

Lemma newPath_drain_elem fs r fs' :
  pathmap fs ≠ ∅ →
  (r, fs') ∈ newPath fs ↔
  ∃ id, id ∈ reclaim fs ∧ r = Ok id
        ∧ fs' = set_pathmap fs (delete id (pathmap fs)).
Proof.
  intros Hm. rewrite (newPath_drain _ Hm), list_elem_of_fmap. split.
  - intros ([id b] & [= -> ->] & Hin). exists id.
    apply elem_of_map_to_list in Hin. split; [|done].
    unfold reclaim. apply elem_of_dom. by exists b.
  - unfold reclaim. intros (id & [b Hb]%elem_of_dom & -> & ->).
    exists (id, b). split; [reflexivity|]. by apply elem_of_map_to_list.
Qed.

(** The call always returns. *)
Lemma newPath_total fs : newPath fs ≠ [].
Proof.
  destruct (decide (pathmap fs = ∅)) as [Hm|Hm].
  - rewrite (newPath_bump _ Hm). by case_match.
  - rewrite (newPath_drain _ Hm). intros E%fmap_nil_inv.
    by apply map_to_list_empty_iff in E.
Qed.

Lemma reclaim_delete fs id :
  reclaim (set_pathmap fs (delete id (pathmap fs))) = reclaim fs ∖ {[id]}.
Proof. unfold reclaim. simpl. apply dom_delete_L. Qed.

Lemma reclaim_delPath fs id : reclaim (delPath fs id) = {[id]} ∪ reclaim fs.
Proof. unfold reclaim, delPath. simpl. apply dom_insert_L. Qed.

(** C1. A call of [newPath] returns.  If the reclaim set is not empty,
    the call returns an element of the reclaim set, any of them, and
    removes that element, leaving the counter alone.  If the reclaim
    set is empty and the counter is below the 64-bit ceiling, the call
    returns the counter and adds one to it.  If the reclaim set is
    empty and the counter is at the ceiling, the call fails with the
    path-exhaustion error. *)
Theorem newPath_spec fs (Hrange : 0 ≤ path fs < two64) :
  newPath fs ≠ []
  ∧ (reclaim fs ≠ ∅ →
     (∀ r fs', (r, fs') ∈ newPath fs →
        ∃ id, id ∈ reclaim fs ∧ r = Ok id
              ∧ reclaim fs' = reclaim fs ∖ {[id]}
              ∧ path fs' = path fs)
     ∧ (∀ id, id ∈ reclaim fs → ∃ fs', (Ok id, fs') ∈ newPath fs))
  ∧ (reclaim fs = ∅ → path fs < maxPath →
     newPath fs = [(Ok (path fs), set_path fs (path fs + 1))])
  ∧ (reclaim fs = ∅ → path fs = maxPath →
     newPath fs = [(Err ResourceExhausted, fs)]).
Proof.
  split; [apply newPath_total|]. split; [|split].
  - intros Hne. assert (pathmap fs ≠ ∅) as Hm.
    { by rewrite <- reclaim_empty. }
    split.
    + intros r fs' (id & Hid & -> & ->)%newPath_drain_elem; [|done].
      exists id. by rewrite reclaim_delete.
    + intros id Hid. eexists. apply newPath_drain_elem; [done|].
      by exists id.
  - intros Hm%reclaim_empty Hlt. rewrite (newPath_bump _ Hm).
    destruct (Z.eqb_spec (path fs) maxPath) as [E|_]; [lia|].
    rewrite wrap64_succ by lia. done.
  - intros Hm%reclaim_empty Heq. rewrite (newPath_bump _ Hm).
    by destruct (Z.eqb_spec (path fs) maxPath).
Qed.

Lemma newPath_spec_witness :
  newPath (New "glenda") = [(Ok 4, set_path (New "glenda") 5)]
  ∧ newPath (set_path (New "glenda") maxPath)
    = [(Err ResourceExhausted, set_path (New "glenda") maxPath)]
  ∧ ∃ fs', (Ok 7, fs') ∈ newPath (delPath (delPath (New "glenda") 7) 9).
Proof.
  split; [|split].
  - apply (newPath_spec (New "glenda")); vm_compute; done.
  - apply (newPath_spec (set_path (New "glenda") maxPath));
      vm_compute; done.
  - apply (newPath_spec (delPath (delPath (New "glenda") 7) 9));
      vm_compute; done.
Defined.

(** C10. When [newPath] fails, it is with the path-exhaustion error,
    with the reclaim set empty and the counter at the ceiling, and the
    state is left as it was: the counter and the reclaim set are
    unchanged.  A [delPath] followed by a [newPath] then succeeds, and
    returns the id just freed. *)
Theorem newPath_failure_keeps_state fs e fs'
    (Hfail : (Err e, fs') ∈ newPath fs) :
  fs' = fs
  ∧ e = ResourceExhausted
  ∧ reclaim fs = ∅ ∧ path fs = maxPath
  ∧ ∀ id, newPath (delPath fs' id) = [(Ok id, fs)].
Proof.
  destruct (decide (pathmap fs = ∅)) as [Hm|Hm]; cycle 1.
  { apply newPath_drain_elem in Hfail as (? & _ & [=] & _); done. }
  rewrite (newPath_bump _ Hm) in Hfail.
  destruct (Z.eqb_spec (path fs) maxPath) as [E|_];
    apply list_elem_of_singleton in Hfail; [|done].
  injection Hfail as -> ->.
  repeat split; [by apply reclaim_empty|done|].
  intros id. unfold newPath, delPath. simpl.
  rewrite Hm, insert_empty, map_to_list_singleton. simpl.
  rewrite delete_singleton_eq. do 3 f_equal.
  destruct fs; simpl in *; by subst.
Qed.

Lemma newPath_failure_keeps_state_witness :
  newPath (delPath (set_path (New "glenda") maxPath) 2)
  = [(Ok 2, set_path (New "glenda") maxPath)].
Proof.
  apply (newPath_failure_keeps_state
           (set_path (New "glenda") maxPath) ResourceExhausted).
  vm_compute. left.
Defined.

(** ** Runs *)

Lemma live_cons (L : gset Z) e tr : live L (e :: tr) = live (live_step L e) tr.
Proof. reflexivity. Qed.

(** Every point of a run is the end of a run: the invariants below,
    stated for the end of every run, hold at every point. *)
Lemma exec_app_inv fs tr1 tr2 fs2 :
  exec fs (tr1 ++ tr2) fs2 → ∃ fs1, exec fs tr1 fs1 ∧ exec fs1 tr2 fs2.
Proof.
  revert fs. induction tr1 as [|e tr1 IH]; intros fs Hex; simpl in *.
  - exists fs. split; [constructor|done].
  - inversion Hex as [|? ? fs1 ? ? Hst Hex']; subst.
    destruct (IH _ Hex') as (fs1' & H1 & H2).
    exists fs1'. split; [by econstructor|done].
Qed.

(** The startup state: counter 4, nothing to reclaim. *)
Lemma New_alloc h : path (New h) = 4 ∧ pathmap (New h) = ∅.
Proof. unfold New. by destruct (decide (h = "")). Qed.

Lemma step_disjoint (L : gset Z) fs e fs' :
  step fs e fs' → L ## reclaim fs → live_step L e ## reclaim fs'.
Proof.
  intros Hst Hd. destruct Hst as [fs r fs' Hin|fs id Hr].
  - destruct (decide (pathmap fs = ∅)) as [Hm|Hm].
    + assert (reclaim fs = ∅) as Hre by by apply reclaim_empty.
      rewrite (newPath_bump _ Hm) in Hin.
      destruct (path fs =? maxPath);
        apply list_elem_of_singleton in Hin; simplify_eq;
        simpl; [done|].
      unfold reclaim in *. simpl. rewrite Hre. set_solver.
    + apply newPath_drain_elem in Hin as (id & Hid & -> & ->); [|done].
      simpl. rewrite reclaim_delete. set_solver.
  - simpl. rewrite reclaim_delPath. set_solver.
Qed.

Lemma exec_disjoint fs tr fs' :
  exec fs tr fs' → ∀ L : gset Z, L ## reclaim fs → live L tr ## reclaim fs'.
Proof.
  induction 1 as [|fs e fs1 tr fs2 Hst _ IH]; intros L Hd; [done|].
  rewrite live_cons. apply IH. by eapply step_disjoint.
Qed.

Lemma step_issued (L : gset Z) fs e fs' :
  step fs e fs' → frees_live L [e] = true →
  issued L fs → issued (live_step L e) fs'.
Proof.
  intros Hst Hfree [Hp Hlt]. destruct Hst as [fs r fs' Hin|fs id Hr].
  - destruct (decide (pathmap fs = ∅)) as [Hm|Hm].
    + assert (reclaim fs = ∅) as Hre by by apply reclaim_empty.
      rewrite (newPath_bump _ Hm) in Hin.
      destruct (Z.eqb_spec (path fs) maxPath) as [E|E];
        apply list_elem_of_singleton in Hin; simplify_eq;
        simpl; [done|].
      assert (0 ≤ path fs < maxPath) as Hb.
      { rewrite maxPath_eq in *. lia. }
      rewrite (wrap64_succ _ Hb). unfold issued, reclaim in *. simpl.
      split; [rewrite maxPath_eq in Hb; lia|].
      intros id Hid. rewrite Hre in Hid.
      apply elem_of_union in Hid as [[Hid| ->%elem_of_singleton]%elem_of_union|Hid];
        [|lia|set_solver].
      assert (0 ≤ id < path fs); [apply Hlt; set_solver|lia].
    + apply newPath_drain_elem in Hin as (id & Hid & -> & ->); [|done].
      unfold issued. simpl. rewrite reclaim_delete.
      split; [done|]. intros id' Hid'. apply Hlt. set_solver.
  - simpl in Hfree. rewrite andb_true_r in Hfree.
    apply bool_decide_eq_true in Hfree.
    unfold issued. simpl. rewrite reclaim_delPath.
    split; [done|]. intros id' Hid'. apply Hlt. set_solver.
Qed.

Lemma frees_live_cons (L : gset Z) e tr :
  frees_live L (e :: tr) = frees_live L [e] && frees_live (live_step L e) tr.
Proof. destruct e as [[]|]; simpl; by rewrite ?andb_true_r. Qed.

Lemma exec_issued fs tr fs' :
  exec fs tr fs' →
  ∀ L : gset Z, frees_live L tr = true → issued L fs → issued (live L tr) fs'.
Proof.
  induction 1 as [|fs e fs1 tr fs2 Hst _ IH]; intros L Hfree Hi; [done|].
  rewrite frees_live_cons in Hfree.
  apply andb_true_iff in Hfree as [He Htr].
  rewrite live_cons. apply IH; [done|]. by eapply step_issued.
Qed.

(** An id that [newPath] returns is not live, when the live ids are
    apart from the reclaim set and below the counter. *)
Lemma newPath_not_live (L : gset Z) fs id fs' :
  L ## reclaim fs → issued L fs → (Ok id, fs') ∈ newPath fs → id ∉ L.
Proof.
  intros Hd [Hp Hlt] Hin.
  destruct (decide (pathmap fs = ∅)) as [Hm|Hm].
  - rewrite (newPath_bump _ Hm) in Hin.
    destruct (path fs =? maxPath);
      apply list_elem_of_singleton in Hin; [done|].
    injection Hin as -> ->. intros Hid.
    assert (0 ≤ path fs < path fs); [apply Hlt; set_solver|lia].
  - apply newPath_drain_elem in Hin as (id' & Hid & [= ->] & _); [|done].
    set_solver.
Qed.

Lemma New_issued h : issued ∅ (New h).
Proof.
  destruct (New_alloc h) as [Hp Hm]. unfold issued, reclaim.
  rewrite Hp, Hm, dom_empty_L. split; [unfold two64; lia|set_solver].
Qed.

Lemma New_reclaim h : reclaim (New h) = ∅.
Proof. apply reclaim_empty, New_alloc. Qed.

Lemma stray_run_exec : exec (New "") stray_run after_stray_run.
Proof.
  apply exec_cons with (delPath (New "") 5).
  { apply step_del. unfold two64. lia. }
  apply exec_cons with (New "").
  { apply step_new. vm_compute. left. }
  apply exec_cons with after_stray_run.
  { apply step_new. vm_compute. left. }
  constructor.
Qed.

(** C2, as stated, fails: after [delPath(5)] on the startup state the
    calls of [newPath] return 5, then 4, then 5 again while 5 is
    live. *)
Lemma newPath_reissues_after_stray_delPath :
  ¬ (∀ h tr fs,
       exec (New h) tr fs →
       live ∅ tr ## reclaim fs
       ∧ ∀ id fs', (Ok id, fs') ∈ newPath fs → id ∉ live ∅ tr).
Proof.
  intros Hclaim.
  destruct (Hclaim "" stray_run after_stray_run stray_run_exec)
    as [_ Hfresh].
  apply (Hfresh 5 (set_path (New "") 6)).
  - vm_compute. left.
  - unfold stray_run, live. simpl. set_solver.
Qed.

(** C2, amended. Along every run of [newPath] and [delPath] calls from
    the startup state, at every point, the live ids (returned by
    [newPath] and not passed to [delPath] since) and the reclaim set are
    disjoint; and if every [delPath] of the run was passed an id that
    was live at the time of the call, no outcome of [newPath] is an id
    that is live. *)
Theorem alloc_never_reissues h tr fs (Hrun : exec (New h) tr fs) :
  live ∅ tr ## reclaim fs
  ∧ (frees_live ∅ tr = true →
     ∀ id fs', (Ok id, fs') ∈ newPath fs → id ∉ live ∅ tr).
Proof.
  assert (live ∅ tr ## reclaim fs) as Hd.
  { eapply exec_disjoint; [done|]. rewrite New_reclaim. set_solver. }
  split; [done|]. intros Hfree id fs' Hin.
  eapply newPath_not_live; [done| |done].
  eapply exec_issued; [done..|]. apply New_issued.
Qed.

Lemma churn_run_exec :
  exec (New "glenda") churn_run (delPath (set_path (New "glenda") 5) 4).
Proof.
  apply exec_cons with (set_path (New "glenda") 5).
  { apply step_new. vm_compute. left. }
  apply exec_cons with (delPath (set_path (New "glenda") 5) 4).
  { apply step_del. unfold two64. lia. }
  constructor.
Defined.

Lemma alloc_never_reissues_witness :
  live ∅ churn_run ## reclaim (delPath (set_path (New "glenda") 5) 4)
  ∧ 4 ∉ live ∅ churn_run.
Proof.
  destruct (alloc_never_reissues "glenda" churn_run _ churn_run_exec)
    as [Hd Hfresh].
  split; [exact Hd|].
  apply (Hfresh eq_refl 4 (set_path (New "glenda") 5)).
  vm_compute. left.
Defined.

End Allocator.

(** * Properties of the startup namespace *)

Section Startup.

Implicit Types (h : string).

Lemma New_hostowner h :
  hostowner (New h) = if decide (h = "") then "adm" else h.
Proof. unfold New. by destruct (decide (h = "")). Qed.

Lemma New_group h : fsgroup (New h) = newGroup (hostowner (New h)).
Proof. unfold New. by destruct (decide (h = "")). Qed.

(** The four node objects [New] leaves, in the order of allocation. *)
Lemma New_shape h :
  root (New h) = addr 0
  ∧ nodes (New h) =
      [ mkNode "/" (hostowner (New h)) "adm" (Z.lor (octal 7 5 5) DMDIR)
               0 None {["adm" := addr 1]} (addr 0);
        mkNode "adm" "adm" "adm" (Z.lor (octal 7 7 0) DMDIR)
               1 None (<["ctl" := addr 3]> {["group" := addr 2]}) (addr 0);
        mkNode "group" "adm" "adm" (octal 6 6 0)
               2 (Some IdentityTable) ∅ (addr 1);
        mkNode "ctl" "adm" "adm" (octal 2 2 0)
               3 (Some Control) ∅ (addr 1) ].
Proof.
  unfold New. destruct (decide (h = "")); split; vm_compute; reflexivity.
Qed.

Lemma New_root_node h :
  deref (New h) (root (New h)) =
    Some (mkNode "/" (hostowner (New h)) "adm" (Z.lor (octal 7 5 5) DMDIR)
                 0 None {["adm" := addr 1]} (addr 0)).
Proof.
  destruct (New_shape h) as [Hr Hn]. unfold deref. by rewrite Hr, Hn.
Qed.

Lemma New_adm_node h :
  deref (New h) (addr 1) =
    Some (mkNode "adm" "adm" "adm" (Z.lor (octal 7 7 0) DMDIR) 1 None
                 (<["ctl" := addr 3]> {["group" := addr 2]}) (addr 0)).
Proof. destruct (New_shape h) as [_ Hn]. unfold deref. by rewrite Hn. Qed.

Lemma New_group_node h :
  deref (New h) (addr 2) =
    Some (mkNode "group" "adm" "adm" (octal 6 6 0) 2 (Some IdentityTable)
                 ∅ (addr 1)).
Proof. destruct (New_shape h) as [_ Hn]. unfold deref. by rewrite Hn. Qed.

Lemma New_ctl_node h :
  deref (New h) (addr 3) =
    Some (mkNode "ctl" "adm" "adm" (octal 2 2 0) 3 (Some Control)
                 ∅ (addr 1)).
Proof. destruct (New_shape h) as [_ Hn]. unfold deref. by rewrite Hn. Qed.

(** C5, as stated, fails for the empty host name: the root then belongs
    to ["adm"]. *)
Lemma New_empty_hostowner_root_uid :
  ¬ (∀ h r, deref (New h) (root (New h)) = Some r → n_uid r = h).
Proof.
  intros Hclaim. specialize (Hclaim "" _ (New_root_node "")).
  vm_compute in Hclaim. discriminate.
Qed.

(** C5, amended. The root node [New] creates is a directory of mode
    0755: read, write and execute for the owner, read and execute for
    group and other.  Its owner is the configured host identity, which
    is the name passed to [New], or ["adm"] when that name is empty. *)
Theorem New_root_mode_and_owner h :
  ∃ r, deref (New h) (root (New h)) = Some r
    ∧ n_mode r = Z.lor (octal 7 5 5) DMDIR
    ∧ is_dir (n_mode r) = true
    ∧ rwx Owner (n_mode r) = (true, true, true)
    ∧ rwx Group (n_mode r) = (true, false, true)
    ∧ rwx Other (n_mode r) = (true, false, true)
    ∧ Perm_String (n_mode r) = "d-rwxr-xr-x"
    ∧ n_uid r = hostowner (New h)
    ∧ hostowner (New h) = (if decide (h = "") then "adm" else h).
Proof.
  eexists. split; [apply New_root_node|]. simpl.
  repeat split; reflexivity.
Qed.

(** C8. In the tree [New] builds, the parent of the root is the root. *)
Theorem New_root_parent h :
  ∃ r, deref (New h) (root (New h)) = Some r ∧ parent r = root (New h).
Proof.
  eexists. split; [apply New_root_node|].
  symmetry. apply New_shape.
Qed.

Lemma writable_0770 : writable_by [Owner; Group] (Z.lor (octal 7 7 0) DMDIR).
Proof.
  intros w. rewrite !elem_of_cons, elem_of_nil.
  destruct w; vm_compute; split; intros; try discriminate; intuition
    discriminate.
Qed.

Lemma writable_0220 : writable_by [Owner; Group] (octal 2 2 0).
Proof.
  intros w. rewrite !elem_of_cons, elem_of_nil.
  destruct w; vm_compute; split; intros; try discriminate; intuition
    discriminate.
Qed.

Lemma unreadable_0220 : unreadable (octal 2 2 0).
Proof. by intros []. Qed.

(** C6, as stated, fails: the only directory under the root has mode
    0770, which lets the group write as well. *)
Lemma New_adm_group_writable :
  ¬ (∀ h, admin_namespace (New h) (writable_by [Owner])).
Proof.
  intros Hclaim.
  destruct (Hclaim "glenda")
    as (r & na & pa & a & ng & pg & g & nc & pc & c
        & Hr & Hna & Ha & _ & Hw & _).
  rewrite New_root_node in Hr. injection Hr as <-. simpl in Hna.
  apply lookup_singleton_Some in Hna as [<- <-].
  rewrite New_adm_node in Ha. injection Ha as <-. simpl in Hw.
  destruct (Hw Group) as [Hgw _].
  specialize (Hgw eq_refl).
  rewrite elem_of_cons, elem_of_nil in Hgw. by destruct Hgw.
Qed.

(** C6, amended. The namespace [New] builds has under the root the
    directory [adm], whose mode 0770 grants write permission to its
    owner and to its group and not to others; inside it are the file
    [group], served by the identity table, and the control file [ctl],
    whose mode 0220 lets owner and group write and nobody read. *)
Theorem New_admin_namespace h :
  admin_namespace (New h) (writable_by [Owner; Group])
  ∧ resolve (New h) (root (New h)) ["adm"] = Some (addr 1)
  ∧ resolve (New h) (root (New h)) ["adm"; "group"] = Some (addr 2)
  ∧ resolve (New h) (root (New h)) ["adm"; "ctl"] = Some (addr 3)
  ∧ n_mode <$> deref (New h) (addr 1) = Some (Z.lor (octal 7 7 0) DMDIR)
  ∧ n_mode <$> deref (New h) (addr 2) = Some (octal 6 6 0)
  ∧ n_mode <$> deref (New h) (addr 3) = Some (octal 2 2 0)
  ∧ writable_by [Owner; Group] (octal 2 2 0).
Proof.
  split.
  { eexists _, "adm", (addr 1), _, "group", (addr 2), _, "ctl", (addr 3), _.
    split; [apply New_root_node|]. split; [reflexivity|].
    split; [apply New_adm_node|].
    split; [reflexivity|]. split; [apply writable_0770|].
    split; [reflexivity|].
    split; [apply New_group_node|]. split; [reflexivity|].
    split; [reflexivity|].
    split; [apply New_ctl_node|]. split; [reflexivity|].
    apply unreadable_0220. }
  assert (root (New h) = addr 0) as Hr by apply New_shape.
  pose proof (New_root_node h) as H0. rewrite Hr in H0 |- *.
  cbn -[deref New]. rewrite H0. cbn -[deref New].
  rewrite New_adm_node, New_group_node, New_ctl_node.
  repeat split; try apply writable_0220.
Qed.

End Startup.

(** * Properties of the fid-minting task *)

Section Minting.

Implicit Types (fs : FS) (closed : gset nat) (fidnew : list nat).

Lemma newFid_loop_sends fs closed fidnew ch f :
  Send ch f ∈ newFid_loop fs closed fidnew → f = fid_template fs.
Proof.
  revert closed. induction fidnew as [|c rest IH]; intros closed; simpl.
  - by intros ?%elem_of_nil.
  - destruct (decide (c ∈ closed)).
    + intros Hin%list_elem_of_singleton. discriminate.
    + rewrite !elem_of_cons. intros [[= _ ->]|[[=]|Hin]]; [done|].
      by eapply IH.
Qed.

(** Reply channels that were not closed before and arrive once each
    are served one after the other, without a crash. *)
Lemma newFid_loop_serves fs closed fidnew :
  NoDup fidnew → (∀ c, c ∈ fidnew → c ∉ closed) →
  newFid_loop fs closed fidnew =
    fidnew ≫= (λ c, [Send c (fid_template fs); Close c]).
Proof.
  revert closed. induction fidnew as [|c rest IH]; intros closed Hnd Hop.
  - reflexivity.
  - apply NoDup_cons in Hnd as [Hc Hnd]. simpl.
    destruct (decide (c ∈ closed)) as [Hin|_].
    { exfalso. apply (Hop c); [left|done]. }
    do 2 f_equal. apply IH; [done|].
    intros c' Hc'. specialize (Hop c' ltac:(by right)). set_solver.
Qed.

Lemma served_on_chan fs fidnew ch :
  NoDup fidnew →
  List.filter (on_chan ch)
    (fidnew ≫= (λ c, [Send c (fid_template fs); Close c]))
  = if decide (ch ∈ fidnew)
    then [Send ch (fid_template fs); Close ch] else [].
Proof.
  induction fidnew as [|c rest IH]; intros Hnd; [done|].
  apply NoDup_cons in Hnd as [Hc Hnd]. specialize (IH Hnd).
  cbn [mbind list_bind app List.filter on_chan] in *.
  destruct (decide (c = ch)) as [->|Hne].
  - rewrite !bool_decide_eq_true_2 by done. rewrite IH.
    rewrite (decide_True (P := ch ∈ ch :: rest)) by left.
    by rewrite decide_False.
  - rewrite !bool_decide_eq_false_2 by done. rewrite IH.
    destruct (decide (ch ∈ rest)) as [Hin|Hin].
    + rewrite decide_True; [done|by right].
    + rewrite decide_False; [done|]. rewrite elem_of_cons. naive_solver.
Qed.

(** C9. Every fid the minting task sends is the same template: number
    0, user ["none"], bound to the root of the file system, not opened.
    When each request brings a reply channel of its own, the task serves
    them in order without a crash, and on every reply channel it
    received it sends exactly one fid and then closes the channel. *)
Theorem newFid_template fs fidnew ch
    (Hfresh : NoDup fidnew) (Hreq : ch ∈ fidnew) :
  (∀ c f, Send c f ∈ newFid fs fidnew →
     f = mkFid 0 "none" (root fs) None)
  ∧ newFid fs fidnew =
      fidnew ≫= (λ c, [Send c (mkFid 0 "none" (root fs) None); Close c])
  ∧ List.filter (on_chan ch) (newFid fs fidnew) =
      [Send ch (mkFid 0 "none" (root fs) None); Close ch].
Proof.
  assert (newFid fs fidnew =
          fidnew ≫= (λ c, [Send c (fid_template fs); Close c])) as Heq.
  { apply newFid_loop_serves; [done|]. set_solver. }
  split; [|split].
  - intros c f Hin. by apply newFid_loop_sends in Hin.
  - exact Heq.
  - rewrite Heq, served_on_chan by done. by rewrite decide_True.
Qed.

Lemma newFid_template_witness :
  List.filter (on_chan 1) (newFid (New "glenda") [3; 1; 2]%nat) =
    [Send 1 (mkFid 0 "none" (addr 0) None); Close 1].
Proof.
  apply (newFid_template (New "glenda") [3; 1; 2]%nat 1%nat).
  - repeat constructor; set_solver.
  - set_solver.
Defined.

End Minting.

(** * Properties of the facade *)

Section Walking.

Implicit Types (fs : FS) (n : ptr) (names : list string).

Lemma walk_keep_last fs names n base :
  names ≠ [] →
  walk fs n names keep_last base =
    match resolve fs n names with
    | Some m => Ok m
    | None => Err NotFound
    end.
Proof.
  revert n base. induction names as [|name rest IH]; intros n base Hne;
    [done|]. simpl.
  destruct (deref fs n ≫= λ d, children d !! name) as [child|] eqn:Hc;
    cycle 1.
  { destruct (deref fs n) as [d|]; simpl in *; [by rewrite Hc|done]. }
  destruct (deref fs n) as [d|]; simpl in *; [|done]. rewrite Hc. simpl.
  unfold keep_last at 1. destruct rest as [|name' rest']; [done|].
  simpl. by apply IH.
Qed.

(** [fs.walk] returns the node the names of the path resolve to from
    the root, and never the blank node it starts with. *)
Lemma fs_walk_resolve fs name :
  fs_walk fs name =
    match resolve fs (root fs) (split name) with
    | Some m => Ok m
    | None => Err NotFound
    end.
Proof.
  unfold fs_walk. destruct (split name) as [|x rest] eqn:Hs; [done|].
  rewrite decide_False by done.
  change (λ n path (base : ptr),
            if decide (length path = 0%nat) then Ok n else Ok base)
    with keep_last.
  rewrite walk_keep_last by done.
  by destruct (resolve fs (root fs) (x :: rest)).
Qed.

(** C7. [Attach] walks from the root along the names of the cleaned
    [aname].  If they do not resolve to a node, it returns the
    not-found error and no fid; otherwise it returns a new fid bound to
    the node they resolve to, with number 0 and no open mode. *)
Theorem Attach_resolves fs uname aname :
  Attach fs uname aname =
    match resolve fs (root fs) (split (Clean aname)) with
    | None => Err NotFound
    | Some n => Ok (mkFid 0 (attach_identity fs uname) n None)
    end.
Proof.
  unfold Attach, attach_identity, Get. rewrite fs_walk_resolve.
  destruct (resolve fs (root fs) (split (Clean aname))); [|done].
  destruct (fsgroup fs !! uname); [done|].
  by destruct (fsgroup fs !! "none").
Qed.

Lemma Attach_Attach_as fs uname aname :
  Attach fs uname aname = Attach_as (attach_identity fs uname) fs aname.
Proof.
  rewrite Attach_resolves. unfold Attach_as. rewrite fs_walk_resolve.
  by destruct (resolve fs (root fs) (split (Clean aname))).
Qed.

(** C4. When the identity store does not know [uname] and holds the
    anonymous identity under its name ["none"], [Attach] goes on as
    ["none"]: it does what it does for ["none"], every fid it returns
    belongs to ["none"], and it does not return the error of the
    lookup. *)
Theorem Attach_unknown_user fs uname aname e u
    (Hunknown : Get (fsgroup fs) uname = Err e)
    (Hnone : fsgroup fs !! "none" = Some u)
    (Hcanon : Name u = "none") :
  Attach fs uname aname = Attach_as "none" fs aname
  ∧ Attach fs uname aname = Attach fs "none" aname
  ∧ (∀ fid, Attach fs uname aname = Ok fid → uid fid = "none")
  ∧ Attach fs uname aname ≠ Err e.
Proof.
  unfold Get in Hunknown.
  destruct (fsgroup fs !! uname) eqn:Hu; [done|].
  injection Hunknown as <-.
  assert (attach_identity fs uname = "none") as Hid.
  { unfold attach_identity. by rewrite Hu, Hnone. }
  assert (attach_identity fs "none" = "none") as Hid'.
  { unfold attach_identity. by rewrite Hnone. }
  rewrite !Attach_Attach_as, Hid, Hid'. repeat split.
  - unfold Attach_as. intros fid.
    destruct (fs_walk fs (Clean aname)); [|done]. by intros [= <-].
  - unfold Attach_as. rewrite fs_walk_resolve.
    by destruct (resolve fs (root fs) (split (Clean aname))).
Qed.

End Walking.

Lemma Attach_unknown_user_witness :
  Attach (New "glenda") "bob" "/" = Ok (mkFid 0 "none" (addr 0) None).
Proof.
  destruct (Attach_unknown_user (New "glenda") "bob" "/" UnknownUser
              (mkUser "none" ["none"]) eq_refl eq_refl eq_refl) as [H _].
  rewrite H. reflexivity.
Defined.

Lemma newGroup_canonical owner : canonical (newGroup owner).
Proof.
  intros k u. unfold newGroup.
  rewrite !lookup_insert_Some, lookup_empty. naive_solver.
Qed.

Lemma newGroup_owner owner :
  newGroup owner !! owner = Some (mkUser owner [owner]).
Proof. unfold newGroup. apply lookup_insert_eq. Qed.

Lemma newGroup_none owner : is_Some (newGroup owner !! "none").
Proof.
  unfold newGroup. destruct (decide (owner = "none")) as [->|Hne].
  - rewrite lookup_insert_eq. by eexists.
  - rewrite lookup_insert_ne by done. rewrite lookup_insert_eq. by eexists.
Qed.

(** C3, as stated, fails: [Attach] resolves the name of the caller, not
    the host identity. *)
Lemma Attach_resolves_caller_not_host :
  ¬ (∀ fs uname aname,
       canonical (fsgroup fs) →
       is_Some (fsgroup fs !! hostowner fs) →
       is_Some (fsgroup fs !! "none") →
       Attach fs uname aname = Attach_as (hostowner fs) fs aname).
Proof.
  intros Hclaim. specialize (Hclaim (New "glenda") "bob" "/").
  rewrite New_group in Hclaim.
  specialize (Hclaim (newGroup_canonical _)).
  rewrite newGroup_owner in Hclaim.
  specialize (Hclaim (mk_is_Some _ _ eq_refl) (newGroup_none _)).
  vm_compute in Hclaim. discriminate.
Qed.

Section FacadeIdentity.

Variable node_Create :
  FS → ptr → string → string → Z → Perm → result ptr * FS.
Variable node_Close : FS → ptr → FS.
Variable Fid_Open : FS → Fid → Z → result Fid * FS.
Variable Fid_Remove : FS → Fid → option error * FS.

(** C3, amended. With an identity store that files every identity
    under its canonical name and holds the host identity and ["none"]:
    [Create], [Open] and [Remove] run as the configured host identity,
    for every path, mode and permission; [Attach] runs as the user it
    is given when the store knows that user, and as ["none"]
    otherwise. *)
Theorem facade_identity fs
    (Hcanon : canonical (fsgroup fs))
    (Hhost : is_Some (fsgroup fs !! hostowner fs))
    (Hnone : is_Some (fsgroup fs !! "none")) :
  (∀ name mode perm,
     Create node_Create node_Close fs name mode perm =
     Create_as node_Create node_Close (hostowner fs) fs name mode perm)
  ∧ (∀ name mode,
       Open Fid_Open fs name mode =
       Open_as Fid_Open (hostowner fs) fs name mode)
  ∧ (∀ name,
       Remove Fid_Remove fs name =
       Remove_as Fid_Remove (hostowner fs) fs name)
  ∧ (∀ uname aname,
       Attach fs uname aname =
       Attach_as
         (if decide (is_Some (fsgroup fs !! uname)) then uname else "none")
         fs aname).
Proof.
  destruct Hhost as [u Hu]. destruct Hnone as [a Ha].
  pose proof (Hcanon _ _ Hu) as Hun. pose proof (Hcanon _ _ Ha) as Han.
  unfold Create, Open, Remove, Get. rewrite Hu, Hun.
  repeat split. intros uname aname. rewrite Attach_Attach_as.
  unfold attach_identity. destruct (fsgroup fs !! uname) as [v|] eqn:Hv.
  - rewrite decide_True by done. by rewrite (Hcanon _ _ Hv).
  - rewrite decide_False by (by intros [? ?]). rewrite Ha. simpl.
    by rewrite Han.
Qed.

End FacadeIdentity.

Lemma facade_identity_witness :
  Open no_Open (New "glenda") "/adm/ctl" 1 =
    Open_as no_Open "glenda" (New "glenda") "/adm/ctl" 1
  ∧ Attach (New "glenda") "adm" "/adm" = Attach_as "adm" (New "glenda") "/adm".
Proof.
  assert (canonical (fsgroup (New "glenda"))) as Hc.
  { rewrite New_group. apply newGroup_canonical. }
  assert (is_Some (fsgroup (New "glenda") !! hostowner (New "glenda"))) as Hh.
  { rewrite New_group. rewrite newGroup_owner. by eexists. }
  assert (is_Some (fsgroup (New "glenda") !! "none")) as Hn.
  { rewrite New_group. apply newGroup_none. }
  destruct (facade_identity no_Create no_Close no_Open no_Remove
              (New "glenda") Hc Hh Hn) as (_ & Ho & _ & Ha).
  split; [apply Ho|apply Ha].
Defined.


(** * Further properties of the allocator *)

Section AllocatorMore.

Implicit Types (fs : FS) (id : Z).

Lemma step_counter fs e fs' :
  step fs e fs' → 0 ≤ path fs < two64 →
  path fs ≤ path fs' ≤ path fs + 1 ∧ path fs' < two64.
Proof.
  intros Hst Hr. destruct Hst as [fs r fs' Hin|fs id _]; [|simpl; lia].
  destruct (decide (pathmap fs = ∅)) as [Hm|Hm].
  - rewrite (newPath_bump _ Hm) in Hin.
    destruct (Z.eqb_spec (path fs) maxPath) as [E|E];
      apply list_elem_of_singleton in Hin; simplify_eq; [lia|].
    simpl. rewrite maxPath_eq in E.
    rewrite wrap64_succ by (rewrite maxPath_eq; lia). lia.
  - apply newPath_drain_elem in Hin as (id & _ & -> & ->); [|done].
    simpl. lia.
Qed.

(** The counter never wraps around and never goes back: along a run of
    [newPath] and [delPath] calls it stays a 64-bit number, does not
    decrease, and grows by at most one per call. *)
Theorem exec_counter_monotone fs tr fs'
    (Hrange : 0 ≤ path fs < two64) (Hrun : exec fs tr fs') :
  path fs ≤ path fs' ≤ path fs + Z.of_nat (length tr) ∧ path fs' < two64.
Proof.
  induction Hrun as [|fs e fs1 tr fs2 Hst _ IH]; [simpl; lia|].
  destruct (step_counter _ _ _ Hst Hrange) as [H1 H2].
  specialize (IH ltac:(lia)). rewrite length_cons. lia.
Qed.

Lemma exec_counter_monotone_witness :
  path (New "glenda") ≤ path (delPath (set_path (New "glenda") 5) 4)
  ∧ path (delPath (set_path (New "glenda") 5) 4) < two64.
Proof.
  assert (0 ≤ path (New "glenda") < two64) as Hr.
  { vm_compute. split; [discriminate|reflexivity]. }
  destruct (exec_counter_monotone (New "glenda") churn_run _
              Hr churn_run_exec) as [[H1 _] H2].
  split; [exact H1|exact H2].
Defined.

(** Freeing an id that is not waiting in the reclaim set and allocating
    again can give that id back, and then leaves the allocator exactly
    as it was. *)
Theorem delPath_newPath_roundtrip fs id (Hfree : id ∉ reclaim fs) :
  (Ok id, fs) ∈ newPath (delPath fs id).
Proof.
  apply newPath_drain_elem.
  - unfold delPath. simpl. apply insert_non_empty.
  - exists id. split; [rewrite reclaim_delPath; set_solver|].
    split; [done|]. unfold delPath. simpl.
    rewrite delete_insert_id by by apply not_elem_of_dom.
    by destruct fs.
Qed.

Lemma delPath_newPath_roundtrip_witness :
  (Ok 7, New "glenda") ∈ newPath (delPath (New "glenda") 7).
Proof.
  apply (delPath_newPath_roundtrip (New "glenda") 7).
  vm_compute. set_solver.
Defined.

(** A double free is absorbed, and the order of two frees does not
    matter. *)
Theorem delPath_absorbs fs a b :
  delPath (delPath fs a) a = delPath fs a
  ∧ delPath (delPath fs a) b = delPath (delPath fs b) a.
Proof.
  unfold delPath, set_pathmap. simpl. split; f_equal.
  - apply insert_insert_eq.
  - destruct (decide (a = b)) as [->|Hne]; [done|].
    by apply insert_insert_ne.
Qed.

Lemma step_past_startup (L : gset Z) fs e fs' :
  step fs e fs' → frees_live L [e] = true →
  issued L fs → past_startup L fs →
  past_startup (live_step L e) fs'
  ∧ match e with
    | EvNew (Ok id) => 4 ≤ id < maxPath
    | _ => True
    end.
Proof.
  intros Hst Hfree [Hp Hlt] [H4 Hge].
  destruct Hst as [fs r fs' Hin|fs id Hr].
  - destruct (decide (pathmap fs = ∅)) as [Hm|Hm].
    + assert (reclaim fs = ∅) as Hre by by apply reclaim_empty.
      rewrite (newPath_bump _ Hm) in Hin.
      destruct (Z.eqb_spec (path fs) maxPath) as [E|E];
        apply list_elem_of_singleton in Hin; simplify_eq;
        simpl; [done|].
      assert (0 ≤ path fs < maxPath) as Hb.
      { rewrite maxPath_eq in *. lia. }
      rewrite (wrap64_succ _ Hb). split; [|lia].
      unfold past_startup, reclaim in *. simpl. split; [lia|].
      intros id Hid. rewrite Hre in Hid.
      apply elem_of_union in Hid
        as [[Hid| ->%elem_of_singleton]%elem_of_union|Hid];
        [|lia|set_solver].
      apply Hge. set_solver.
    + apply newPath_drain_elem in Hin as (id & Hid & -> & ->); [|done].
      assert (4 ≤ id) by (apply Hge; set_solver).
      assert (0 ≤ id < path fs) by (apply Hlt; set_solver).
      split; [|rewrite maxPath_eq; lia].
      unfold past_startup. simpl. rewrite reclaim_delete.
      split; [done|]. intros id' Hid'.
      destruct (decide (id' = id)) as [->|Hne]; [done|].
      apply Hge. set_solver.
  - split; [|done]. simpl in Hfree. rewrite andb_true_r in Hfree.
    apply bool_decide_eq_true in Hfree.
    unfold past_startup. simpl. rewrite reclaim_delPath.
    split; [done|]. intros id' Hid'. apply Hge. set_solver.
Qed.

Lemma exec_handed_out fs tr fs' :
  exec fs tr fs' →
  ∀ L : gset Z, frees_live L tr = true →
    issued L fs → past_startup L fs →
    (∀ id, id ∈ handed_out tr → 4 ≤ id < maxPath)
    ∧ issued (live L tr) fs' ∧ past_startup (live L tr) fs'.
Proof.
  induction 1 as [|fs e fs1 tr fs2 Hst _ IH]; intros L Hfree Hi Hs.
  { split; [|done]. intros id Hid. by apply elem_of_nil in Hid. }
  rewrite frees_live_cons in Hfree.
  apply andb_true_iff in Hfree as [He Htr].
  destruct (step_past_startup _ _ _ _ Hst He Hi Hs) as [Hs1 Hid1].
  pose proof (step_issued _ _ _ _ Hst He Hi) as Hi1.
  destruct (IH _ Htr Hi1 Hs1) as (Hall & Hi2 & Hs2).
  rewrite live_cons. split; [|done].
  intros id Hid. unfold handed_out in Hid. simpl in Hid.
  destruct e as [[id0|err]|id0]; simpl in Hid; try by apply Hall.
  apply elem_of_cons in Hid as [->|Hid]; [done|by apply Hall].
Qed.

(** The path ids 0 to 3 of the startup nodes and the id 2^64-1 are never
    handed out: along every run from the startup state that frees live
    ids only, every id [newPath] has returned, and every id it can
    return next, is at least 4 and below the ceiling. *)
Theorem handed_out_in_range h tr fs
    (Hrun : exec (New h) tr fs) (Hfree : frees_live ∅ tr = true) :
  (∀ id, id ∈ handed_out tr → 4 ≤ id < maxPath)
  ∧ ∀ id fs', (Ok id, fs') ∈ newPath fs → 4 ≤ id < maxPath.
Proof.
  assert (past_startup ∅ (New h)) as Hs.
  { destruct (New_alloc h) as [Hp Hm]. unfold past_startup, reclaim.
    rewrite Hp, Hm, dom_empty_L. split; [lia|set_solver]. }
  destruct (exec_handed_out _ _ _ Hrun ∅ Hfree (New_issued h) Hs)
    as (Hall & Hi & Hs').
  split; [done|]. intros id fs' Hin.
  assert (step fs (EvNew (Ok id)) fs') as Hst by by constructor.
  by destruct (step_past_startup (live ∅ tr) _ _ _ Hst eq_refl Hi Hs').
Qed.

Lemma handed_out_in_range_witness :
  ∀ id, id ∈ handed_out churn_run → 4 ≤ id < maxPath.
Proof.
  apply (handed_out_in_range "glenda" churn_run _ churn_run_exec eq_refl).
Defined.

End AllocatorMore.
